(** * Session-manager (src/main.py): a shallow embedding of the credential
    pool, the registry migration, the session file store and the
    connection wrapper [AdvancedTelegramClient]. *)

From Stdlib Require Import ZArith Lia Ascii String.
From stdpp Require Import base list gmap strings.

Open Scope Z_scope.

(* ------------------------------------------------------------------ *)
(** ** SecureConfig: environment options and the API pool             *)
(* ------------------------------------------------------------------ *)

Module SecureConfig.

(** [limits] of one pool entry: [{"last_used": None, "count": 0}].
    Timestamps are UTC instants in microseconds, the resolution of
    [datetime]; [(now - last_used).total_seconds() > 3600] holds exactly
    when the difference exceeds 3600 * 10^6 microseconds (a float that
    close to 3600 cannot come from a whole number of microseconds). *)
Record limits := mk_limits { last_used : option Z; count : Z }.

(** One entry of [API_POOL]. *)
Record api := mk_api { API_ID : Z; API_HASH : string; api_limits : limits }.

Definition initial_limits : limits := mk_limits None 0.

Definition API_POOL : list api :=
  [ mk_api 23077946 "b6c2b715121435d4aa285c1fb2bc2220" initial_limits;
    mk_api 29637547 "13e303a526522f741c0680cfc8cd9c00" initial_limits ].

(** Defaults of [MAX_RETRIES], [RETRY_DELAY] and [CONCURRENT_CONNECTIONS]
    when the environment does not set them. *)
Definition MAX_RETRIES_default : Z := 5.
Definition RETRY_DELAY_default : Z := 5.
Definition CONCURRENT_CONNECTIONS_default : Z := 4.

Definition usage_ceiling : Z := 100.
Definition cooldown_us : Z := 3600 * 1000000.

(** [api["limits"]["last_used"] and (now - last_used).total_seconds() > 3600];
    [None] is falsy. All clock reads of one call are taken as the instant
    [now]. *)
Definition cooled_down (now : Z) (l : limits) : bool :=
  match last_used l with
  | None => false
  | Some t => bool_decide (cooldown_us < now - t)
  end.

(** The selection test of the loop. *)
Definition qualifies (now : Z) (a : api) : bool :=
  bool_decide (count (api_limits a) < usage_ceiling) || cooled_down now (api_limits a).

(** The in-place update of a selected entry: reset on cooldown, stamp,
    increment. *)
Definition touch (now : Z) (a : api) : api :=
  let l := api_limits a in
  let c := if cooled_down now l then 0 else count l in
  mk_api (API_ID a) (API_HASH a) (mk_limits (Some now) (c + 1)).

(** [get_available_api]: first fit in declaration order; [None] is the
    raised "All APIs have reached their limits" exception. The pool is
    returned with the selected entry mutated, the entry itself second. *)
Fixpoint get_available_api (now : Z) (pool : list api) : option (list api * api) :=
  match pool with
  | [] => None
  | a :: rest =>
      if qualifies now a then
        let a' := touch now a in Some (a' :: rest, a')
      else
        match get_available_api now rest with
        | None => None
        | Some (rest', r) => Some (a :: rest', r)
        end
  end.

End SecureConfig.

(* ------------------------------------------------------------------ *)
(** ** SecureConfig._migrate_database: the sessions table             *)
(* ------------------------------------------------------------------ *)

Module Registry.

(** SQLite cell values as the table holds them. *)
Inductive value := VNull | VText (s : string) | VInt (n : Z).

(** The [sessions] table: its column names in order and its rows, each
    row listing its cells in column order. *)
Record table := mk_table { columns : list string; rows : list (list value) }.

(** [ALTER TABLE sessions ADD COLUMN name ... DEFAULT d]: the column is
    appended and every existing row reads the default in it. *)
Definition add_column (t : table) (name : string) (d : value) : table :=
  mk_table (columns t ++ [name]) (map (fun r => r ++ [d]) (rows t)).

(** The [migrations] list, with each column's default. *)
Definition migrations : list (string * value) :=
  [ ("metadata", VNull); ("session_hash", VNull);
    ("status", VText "active"); ("notes", VNull) ].

(** [_create_database]: the fresh table, no rows. *)
Definition created_table : table :=
  mk_table ["phone"; "path"; "created_at"; "last_used"; "metadata";
            "session_hash"; "status"; "notes"] [].

(** SQLite compares column names with ASCII case folding. *)
Definition fold_case (c : ascii) : ascii :=
  let n := nat_of_ascii c in
  if Nat.leb 65 n && Nat.leb n 90 then ascii_of_nat (n + 32) else c.

Definition name_eq_ci (a b : string) : bool :=
  bool_decide (map fold_case (list_ascii_of_string a) = map fold_case (list_ascii_of_string b)).

(** [ALTER TABLE sessions ADD COLUMN name]: SQLite raises "duplicate
    column name" when an existing column has the same name up to case. *)
Definition alter_add (t : table) (name : string) (d : value) : option table :=
  if existsb (name_eq_ci name) (columns t) then None else Some (add_column t name d).

(** The loop over [migrations]: [cols] is the set read once by
    [PRAGMA table_info(sessions)] before the loop, tested with Python's
    exact [not in]. The result is the table left in the file and whether
    the loop ran to its end: Python's [sqlite3] opens no transaction
    before DDL, so each [ALTER] is committed when it runs, and the
    [OperationalError] of a failing one leaves the earlier columns in
    place and skips the later ones. *)
Fixpoint run_migrations (cols : list string) (ms : list (string * value)) (t : table)
    : table * bool :=
  match ms with
  | [] => (t, true)
  | m :: ms' =>
      if bool_decide (m.1 ∈ cols) then run_migrations cols ms' t
      else
        match alter_add t m.1 m.2 with
        | None => (t, false)
        | Some t' => run_migrations cols ms' t'
        end
  end.

Definition apply_migrations (cols : list string) (t : table) : table * bool :=
  run_migrations cols migrations t.

Inductive mig_result :=
  | MCreated (t : table)          (* the file did not exist *)
  | MMigrated (t : table)         (* the existing table after the ALTERs *)
  | MFailed (t : option table).   (* sqlite3.OperationalError escapes; the
                                     table as the committed ALTERs left it *)

(** [_migrate_database]. The argument is the registry file: [None] when
    it does not exist, [Some None] when it exists without a [sessions]
    table (PRAGMA gives no columns and the first ALTER fails), and
    [Some (Some t)] for an existing table [t]. *)
Definition migrate_database (file : option (option table)) : mig_result :=
  match file with
  | None => MCreated created_table
  | Some None => MFailed None
  | Some (Some t) =>
      let '(t', ok) := apply_migrations (columns t) t in
      if ok then MMigrated t' else MFailed (Some t')
  end.

End Registry.

(* ------------------------------------------------------------------ *)
(** ** Session files and AdvancedTelegramClient                       *)
(* ------------------------------------------------------------------ *)

Module Client.

(** Text is a Rocq [string] whose characters are the code points of the
    Python [str], all below 256. [str.isspace] holds for these of them:
    9-13, 28-32, U+0085 and U+00A0; [str.strip()] removes them at both
    ends. *)
Definition is_space (c : ascii) : bool :=
  let n := nat_of_ascii c in
  (Nat.leb 9 n && Nat.leb n 13) || (Nat.leb 28 n && Nat.leb n 32) ||
  Nat.eqb n 133 || Nat.eqb n 160.

Fixpoint lstrip (l : list ascii) : list ascii :=
  match l with
  | [] => []
  | c :: r => if is_space c then lstrip r else l
  end.

(** [s.strip()]. *)
Definition strip (s : string) : string :=
  string_of_list_ascii (rev (lstrip (rev (lstrip (list_ascii_of_string s))))).

(** The files on disk, by path, with their contents. *)
Abbreviation files := (gmap string string).

(** A character of the URL-safe base64 alphabet, as
    [base64.urlsafe_b64decode] reads it: ['-'] and ['_'] are translated
    to ['+'] and ['/'] before decoding. *)
Definition b64_char (c : ascii) : bool :=
  let n := nat_of_ascii c in
  (Nat.leb 65 n && Nat.leb n 90) || (Nat.leb 97 n && Nat.leb n 122) ||
  (Nat.leb 48 n && Nat.leb n 57) ||
  Nat.eqb n 43 || Nat.eqb n 47 || Nat.eqb n 45 || Nat.eqb n 95.

(** The number of bytes [binascii.a2b_base64] (non-strict mode, as
    [b64decode] calls it) produces, or [None] when it raises. [quad_pos]
    and [pads] are the decoder's variables: characters outside the
    alphabet are skipped, a pad sequence completing a quad ends the
    input, and input ending inside a quad is an error. *)
Fixpoint b64_decoded_len (quad_pos pads nbytes : nat) (l : list ascii) : option nat :=
  match l with
  | [] => if Nat.eqb quad_pos 0 then Some nbytes else None
  | c :: r =>
      if ascii_dec c "=" then
        if Nat.leb 2 quad_pos then
          if Nat.leb 4 (quad_pos + S pads) then Some nbytes
          else b64_decoded_len quad_pos (S pads) nbytes r
        else b64_decoded_len quad_pos pads nbytes r
      else if b64_char c then
        match quad_pos with
        | O => b64_decoded_len 1 0 nbytes r
        | S O => b64_decoded_len 2 0 (S nbytes) r
        | S (S O) => b64_decoded_len 3 0 (S nbytes) r
        | _ => b64_decoded_len 0 0 (S nbytes) r
        end
      else b64_decoded_len quad_pos pads nbytes r
  end.

(** Whether Telethon's [StringSession(string)] accepts [string]: the
    empty string is the empty session; otherwise the first character
    must be [CURRENT_VERSION = '1'], the rest must be ASCII (else
    [urlsafe_b64decode] raises) and decode to exactly the size of
    ['>B{}sH256s'] with a 4-byte address when the rest has 352
    characters and a 16-byte one otherwise ([struct.unpack] raises on
    any other size). *)
Definition string_session_ok (s : string) : bool :=
  match s with
  | EmptyString => true
  | String c rest =>
      let l := list_ascii_of_string rest in
      let size := if Nat.eqb (length l) 352 then 263%nat else 275%nat in
      bool_decide (c = "1"%char) &&
      forallb (fun c => Nat.ltb (nat_of_ascii c) 128) l &&
      match b64_decoded_len 0 0 0 l with
      | Some n => Nat.eqb n size
      | None => false
      end
  end.

(** The session read at the start of [connect]: the stripped file
    contents when [session_path] exists and [StringSession] accepts
    them; the empty [StringSession()] when the file does not exist, and
    also when parsing raises, since [except Exception] keeps the empty
    session. File contents are the decoded text; a file that cannot be
    read is not represented. *)
Definition load_session (fs : files) (path : string) : string :=
  match fs !! path with
  | Some contents =>
      let s := strip contents in
      if string_session_ok s then s else ""
  | None => ""
  end.

(** The client object: [session_path], [_connected], and [client], the
    [TelegramClient] (or [None]) named by the session string its
    [session.save()] gives. *)
Record client := mk_client {
  session_path : string;
  connected : bool;
  tg_client : option string
}.

(** The options of [config] read by the client. *)
Record config := mk_config { MAX_RETRIES : Z; RETRY_DELAY : Z }.

Definition default_config : config :=
  mk_config SecureConfig.MAX_RETRIES_default SecureConfig.RETRY_DELAY_default.

(** Observable steps: a connection attempt, a remote call, a sleep. *)
Inductive event := EConnect (attempt : nat) | ECall (attempt : nat) | ESleep (d : Z).

(** How one iteration of the [connect] loop ends: an exception before
    [_connected] is set (network, protocol), [is_user_authorized()]
    false, an exception after [_connected = True] (registry update), or
    success. *)
Inductive attempt_result :=
  | AFailBeforeMark | ANotAuthorized | AFailAfterMark | AConnected.

(** [range(MAX_RETRIES)] has [Z.to_nat MAX_RETRIES] elements (none when
    the option is zero or negative). *)
Definition attempts (cfg : config) : nat := Z.to_nat (MAX_RETRIES cfg).

(** [config.RETRY_DELAY * (2 ** attempt)]. *)
Definition backoff (cfg : config) (attempt : nat) : Z :=
  RETRY_DELAY cfg * 2 ^ Z.of_nat attempt.

Section Connect.
Variable cfg : config.
Variable auth : nat -> attempt_result.

(** The [for attempt in range(config.MAX_RETRIES)] loop of [connect],
    [n] iterations left; it returns the flag [_connected], the events
    and the returned boolean. *)
Fixpoint connect_loop (n attempt : nat) (conn : bool) : bool * list event * bool :=
  match n with
  | O => (conn, [], false)
  | S n' =>
      let retry conn' :=
        let '(c, tr, r) := connect_loop n' (S attempt) conn' in
        if bool_decide (Z.of_nat attempt < MAX_RETRIES cfg - 1)
        then (c, EConnect attempt :: ESleep (backoff cfg attempt) :: tr, r)
        else (c, EConnect attempt :: tr, r) in
      match auth attempt with
      | ANotAuthorized => (conn, [EConnect attempt], false)
      | AConnected => (true, [EConnect attempt], true)
      | AFailBeforeMark => retry conn
      | AFailAfterMark => retry true
      end
  end.
End Connect.

(** Outcome of [connect]: a boolean, or the pool-exhausted exception of
    [get_available_api]. *)
Inductive conn_outcome := CRet (b : bool) | CPoolExhausted.

(** [connect]: an already connected client returns [True]; otherwise the
    session file is loaded, an API entry is taken from the pool and a
    fresh [TelegramClient] on the loaded session is stored in
    [self.client] before the attempt loop. *)
Definition connect (cfg : config) (now : Z) (pool : list SecureConfig.api)
    (fs : files) (auth : nat -> attempt_result) (c : client)
    : client * list SecureConfig.api * list event * conn_outcome :=
  if connected c then (c, pool, [], CRet true)
  else
    let session := load_session fs (session_path c) in
    match SecureConfig.get_available_api now pool with
    | None => (c, pool, [], CPoolExhausted)
    | Some (pool', _) =>
        let '(conn, tr, r) := connect_loop cfg auth (attempts cfg) 0 (connected c) in
        (mk_client (session_path c) conn (Some session), pool', tr, CRet r)
    end.

(** What the remote call of one [safe_execute] attempt gives: a result,
    a [FloodWaitError] with its [seconds], or another exception. *)
Inductive response := ROk (v : nat) | RFlood (seconds : Z) | RErr (e : nat).

(** Exceptions leaving [safe_execute]: the re-raised remote one, or the
    pool-exhausted exception of the inner [connect]. *)
Inductive exn := ExRemote (e : nat) | ExPoolExhausted.

Inductive outcome := Return (r : option nat) | Raise (x : exn).

(** [wait = min(e.seconds, 3600)]. *)
Definition flood_ceiling : Z := 3600.

Section Execute.
Variable cfg : config.
Variable remote : nat -> response.

(** The [for attempt in range(config.MAX_RETRIES)] loop of
    [safe_execute], [n] iterations left; falling out of it is
    [return None]. *)
Fixpoint exec_loop (n attempt : nat) : list event * outcome :=
  match n with
  | O => ([], Return None)
  | S n' =>
      match remote attempt with
      | ROk v => ([ECall attempt], Return (Some v))
      | RFlood s =>
          let '(tr, o) := exec_loop n' (S attempt) in
          (ECall attempt :: ESleep (Z.min s flood_ceiling) :: tr, o)
      | RErr e =>
          if bool_decide (Z.of_nat attempt = MAX_RETRIES cfg - 1)
          then ([ECall attempt], Raise (ExRemote e))
          else
            let '(tr, o) := exec_loop n' (S attempt) in
            (ECall attempt :: ESleep (backoff cfg attempt) :: tr, o)
      end
  end.
End Execute.

(** [safe_execute]: connect first when not connected ([return None] when
    that gives [False]), then the attempt loop. *)
Definition safe_execute (cfg : config) (now : Z) (pool : list SecureConfig.api)
    (fs : files) (auth : nat -> attempt_result) (remote : nat -> response)
    (c : client) : client * list SecureConfig.api * list event * outcome :=
  if connected c then
    let '(tr, o) := exec_loop cfg remote (attempts cfg) 0 in (c, pool, tr, o)
  else
    match connect cfg now pool fs auth c with
    | (c', pool', tr1, CPoolExhausted) => (c', pool', tr1, Raise ExPoolExhausted)
    | (c', pool', tr1, CRet false) => (c', pool', tr1, Return None)
    | (c', pool', tr1, CRet true) =>
        let '(tr2, o) := exec_loop cfg remote (attempts cfg) 0 in
        (c', pool', tr1 ++ tr2, o)
    end.

(** Which statement of the [try] block of [disconnect] raises, if any:
    opening the session file for writing, [os.chmod], or
    [self.client.disconnect()]. *)
Inductive disconnect_fault := NoFault | WriteFails | ChmodFails | CloseFails.

(** [disconnect]. Every exception of the [try] block is caught, so the
    method always returns; [self.client = None] runs on every path, while
    [self._connected = False] is the last statement of the [try]. The
    session string is written to [session_path] unless opening the file
    fails. *)
Definition disconnect (fault : disconnect_fault) (fs : files) (c : client)
    : client * files :=
  let path := session_path c in
  match tg_client c with
  | Some s =>
      if connected c then
        match fault with
        | NoFault => (mk_client path false None, <[path := s]> fs)
        | WriteFails => (mk_client path true None, fs)
        | ChmodFails | CloseFails => (mk_client path true None, <[path := s]> fs)
        end
      else (mk_client path (connected c) None, fs)
  | None => (mk_client path (connected c) None, fs)
  end.



(** Number of remote calls in a trace. *)
Fixpoint calls (tr : list event) : nat :=
  match tr with
  | [] => O
  | ECall _ :: r => S (calls r)
  | _ :: r => calls r
  end.

(** The sleep durations of a trace, in order. *)
Fixpoint sleeps (tr : list event) : list Z :=
  match tr with
  | [] => []
  | ESleep d :: r => d :: sleeps r
  | _ :: r => sleeps r
  end.

(** A response on which the loop of [safe_execute] does not return a
    result. *)
Definition continues (r : response) : bool :=
  match r with ROk _ => false | _ => true end.

End Client.

(* ------------------------------------------------------------------ *)
(** ** Concurrent [safe_execute] calls under [asyncio.gather]         *)
(* ------------------------------------------------------------------ *)

Module Gather.

(** Where one [safe_execute] task on a connected client stands:
    not yet scheduled, suspended in [await self.client(request)] with the
    request in flight, or finished. *)
Inductive phase := Ready | InFlight | Done.

(** One scheduler step. A ready task runs from its entry to its first
    suspension point, the remote call: on that path ([_connected] true,
    first loop iteration) there is no other [await], and no semaphore
    is acquired. An in-flight task completes when its response comes. *)
Inductive step : list phase -> list phase -> Prop :=
  | step_start (pre post : list phase) :
      step (pre ++ Ready :: post) (pre ++ InFlight :: post)
  | step_finish (pre post : list phase) :
      step (pre ++ InFlight :: post) (pre ++ Done :: post).

(** Number of requests in flight. *)
Fixpoint in_flight (ts : list phase) : nat :=
  match ts with
  | [] => 0
  | InFlight :: r => S (in_flight r)
  | _ :: r => in_flight r
  end.

End Gather.

(* ================================================================== *)
(** * Properties                                                       *)
(* ================================================================== *)

Module PoolFacts.
Import SecureConfig.

(** The scan selects the first qualifying entry and writes back its
    touched copy at the same index. *)
Lemma get_available_api_spec (now : Z) (pool : list api) :
  match get_available_api now pool with
  | Some (pool', a') =>
      ∃ i a, pool !! i = Some a ∧
        (∀ j b, (j < i)%nat → pool !! j = Some b → qualifies now b = false) ∧
        qualifies now a = true ∧ a' = touch now a ∧ pool' = <[i := a']> pool
  | None => ∀ b, b ∈ pool → qualifies now b = false
  end.
Proof.
  induction pool as [|a rest IH]; simpl.
  - intros b Hb. by apply elem_of_nil in Hb.
  - destruct (qualifies now a) eqn:Hq.
    + exists 0%nat, a. repeat split; auto.
      intros j b Hj. lia.
    + destruct (get_available_api now rest) as [[rest' r]|] eqn:Hg.
      * destruct IH as (i & b & Hi & Hbefore & Hqb & -> & ->).
        exists (S i), b. repeat split; auto.
        intros [|j] c Hj Hc; simpl in Hc.
        -- by injection Hc as <-.
        -- apply (Hbefore j c); [lia | exact Hc].
      * intros b Hb. apply elem_of_cons in Hb as [->|Hb]; auto.
Qed.
End PoolFacts.

(** C2: [get_available_api] scans the pool in declaration order and returns
    the first entry whose count is below 100 or whose cooldown (more than
    3600 s since its last use) has elapsed. The selected entry's counter
    is reset to 0 first exactly when its cooldown has elapsed, then
    incremented, and its [last_used] is set to now; the updated entry is
    written back at its index. An entry whose count is at or above the
    ceiling is returned only when its cooldown has elapsed, and then its
    counter reads 1. When no entry qualifies the call fails. *)
Theorem get_available_api_first_fit (now : Z) (pool : list SecureConfig.api) :
  match SecureConfig.get_available_api now pool with
  | Some (pool', a') =>
      ∃ i a, pool !! i = Some a ∧
        (∀ j b, (j < i)%nat → pool !! j = Some b →
           SecureConfig.qualifies now b = false) ∧
        SecureConfig.qualifies now a = true ∧
        pool' = <[i := a']> pool ∧
        SecureConfig.API_ID a' = SecureConfig.API_ID a ∧
        SecureConfig.last_used (SecureConfig.api_limits a') = Some now ∧
        SecureConfig.count (SecureConfig.api_limits a') =
          (if SecureConfig.cooled_down now (SecureConfig.api_limits a) then 0
           else SecureConfig.count (SecureConfig.api_limits a)) + 1 ∧
        (SecureConfig.usage_ceiling <= SecureConfig.count (SecureConfig.api_limits a) →
           SecureConfig.cooled_down now (SecureConfig.api_limits a) = true ∧
           SecureConfig.count (SecureConfig.api_limits a') = 1)
  | None => ∀ b, b ∈ pool → SecureConfig.qualifies now b = false
  end.
Proof.
  pose proof (PoolFacts.get_available_api_spec now pool) as H.
  destruct (SecureConfig.get_available_api now pool) as [[pool' a']|]; [|exact H].
  destruct H as (i & a & Hi & Hbefore & Hq & -> & ->).
  exists i, a. unfold SecureConfig.touch; simpl.
  do 7 (split; [done|]).
  intros Hc. unfold SecureConfig.qualifies in Hq.
  apply orb_true_iff in Hq as [Hlt|Hcd].
  - apply bool_decide_eq_true in Hlt. unfold SecureConfig.usage_ceiling in *. lia.
  - rewrite Hcd. split; reflexivity.
Qed.

Module ExecFacts.
Import Client.

Section Loop.
Variable cfg : config.
Variable remote : nat -> response.

Lemma attempts_pos_max :
  (0 < attempts cfg)%nat -> MAX_RETRIES cfg = Z.of_nat (attempts cfg).
Proof. unfold attempts. lia. Qed.

(** A non-final iteration ending in an error sleeps and goes on. *)
Lemma not_final (a n : nat) :
  (a + n = attempts cfg)%nat -> (1 < n)%nat ->
  bool_decide (Z.of_nat a = MAX_RETRIES cfg - 1) = false.
Proof.
  intros Hn H1. apply bool_decide_eq_false.
  rewrite (attempts_pos_max) by lia. lia.
Qed.

Lemma final (a : nat) :
  (a + 1 = attempts cfg)%nat ->
  bool_decide (Z.of_nat a = MAX_RETRIES cfg - 1) = true.
Proof.
  intros Hn. apply bool_decide_eq_true.
  rewrite (attempts_pos_max) by lia. lia.
Qed.

Lemma exec_loop_calls (n a : nat) : (calls (exec_loop cfg remote n a).1 <= n)%nat.
Proof.
  revert a; induction n as [|n IH]; intros a; simpl; [lia|].
  destruct (remote a) as [v|s|e]; simpl; [lia| |].
  - specialize (IH (S a)). destruct (exec_loop cfg remote n (S a)). simpl in *. lia.
  - destruct (bool_decide _); simpl; [lia|].
    specialize (IH (S a)). destruct (exec_loop cfg remote n (S a)). simpl in *. lia.
Qed.

Lemma exec_loop_head (n a : nat) :
  ∃ tr, (exec_loop cfg remote (S n) a).1 = ECall a :: tr.
Proof.
  simpl. destruct (remote a) as [v|s|e]; simpl; [eauto| |].
  - destruct (exec_loop cfg remote n (S a)). simpl. eauto.
  - destruct (bool_decide _); [simpl; eauto|].
    destruct (exec_loop cfg remote n (S a)). simpl. eauto.
Qed.

(** Reaching a flood wait at iteration [a + k] through [k] iterations
    that did not return. *)
Lemma exec_loop_flood (s : Z) (k : nat) : ∀ (n a : nat),
  (a + n = attempts cfg)%nat -> (k < n)%nat ->
  remote (a + k)%nat = RFlood s ->
  (∀ j, (j < k)%nat -> continues (remote (a + j)%nat) = true) ->
  ∃ pre,
    (exec_loop cfg remote n a).1 =
      pre ++ ECall (a + k) :: ESleep (Z.min s flood_ceiling)
          :: (exec_loop cfg remote (n - S k) (S (a + k))).1 ∧
    (exec_loop cfg remote n a).2 = (exec_loop cfg remote (n - S k) (S (a + k))).2.
Proof.
  induction k as [|k IH]; intros n a Hn Hk Hr Hc;
    destruct n as [|n]; try lia; simpl.
  - rewrite Nat.add_0_r in Hr |- *. rewrite Hr, Nat.sub_0_r.
    destruct (exec_loop cfg remote n (S a)). by exists [].
  - assert (H0 := Hc 0%nat ltac:(lia)). rewrite Nat.add_0_r in H0.
    assert (IHk := IH n (S a) ltac:(lia) ltac:(lia)
                     ltac:(by replace (S a + k)%nat with (a + S k)%nat by lia)
                     ltac:(intros j Hj; replace (S a + j)%nat with (a + S j)%nat by lia;
                           apply Hc; lia)).
    replace (S a + k)%nat with (a + S k)%nat in IHk by lia.
    destruct IHk as (pre & H1 & H2).
    destruct (remote a) as [v|s'|e] eqn:Ha; [discriminate| |].
    + destruct (exec_loop cfg remote n (S a)) as [tr o]. simpl in H1, H2 |- *.
      exists (ECall a :: ESleep (Z.min s' flood_ceiling) :: pre). rewrite H1, H2. done.
    + rewrite (not_final a (S n)) by lia.
      destruct (exec_loop cfg remote n (S a)) as [tr o]. simpl in H1, H2 |- *.
      exists (ECall a :: ESleep (backoff cfg a) :: pre). rewrite H1, H2. done.
Qed.

(** Every iteration from [a] on ending in an error. *)
Lemma exec_loop_all_errors (err : nat -> nat) : ∀ (n a : nat),
  (a + n = attempts cfg)%nat -> (1 <= n)%nat ->
  (∀ j, (a <= j < a + n)%nat -> remote j = RErr (err j)) ->
  sleeps (exec_loop cfg remote n a).1 = map (backoff cfg) (seq a (n - 1)) ∧
  calls (exec_loop cfg remote n a).1 = n ∧
  (exec_loop cfg remote n a).2 = Raise (ExRemote (err (a + n - 1)%nat)).
Proof.
  induction n as [|n IH]; intros a Hn H1 Herr; [lia|].
  simpl. rewrite (Herr a) by lia.
  destruct n as [|n].
  - rewrite final by lia. simpl.
    replace (a + 1 - 1)%nat with a by lia. done.
  - rewrite (not_final a (S (S n))) by lia.
    destruct (IH (S a) ltac:(lia) ltac:(lia) ltac:(intros j Hj; apply Herr; lia))
      as (Hs & Hcl & Ho).
    destruct (exec_loop cfg remote (S n) (S a)) as [tr o]. simpl in *.
    rewrite Hs, Hcl, Ho.
    simpl. rewrite !Nat.sub_0_r. split; [done|split; [done|]]. do 3 f_equal. lia.
Qed.

End Loop.

(** Every iteration from [a] on ending in a flood wait. *)
Lemma exec_loop_all_floods (cfg : Client.config) (remote : nat -> Client.response) :
  ∀ (n a : nat), (∀ j, (a <= j < a + n)%nat -> ∃ s, remote j = Client.RFlood s) ->
  (Client.exec_loop cfg remote n a).2 = Client.Return None.
Proof.
  induction n as [|n IH]; intros a Hf; [done|]. simpl.
  destruct (Hf a ltac:(lia)) as [s ->].
  specialize (IH (S a) ltac:(intros j Hj; apply Hf; lia)).
  destruct (Client.exec_loop cfg remote n (S a)). done.
Qed.

Section SafeExecute.
Import Client.
Variables (cfg : config) (now : Z) (pool : list SecureConfig.api) (fs : files)
          (auth : nat -> attempt_result) (remote : nat -> response).

Lemma safe_execute_connected (c : client) :
  connected c = true ->
  safe_execute cfg now pool fs auth remote c =
    (c, pool, (exec_loop cfg remote (attempts cfg) 0).1,
              (exec_loop cfg remote (attempts cfg) 0).2).
Proof.
  intros H. unfold safe_execute. rewrite H.
  by destruct (exec_loop cfg remote (attempts cfg) 0).
Qed.

Lemma safe_execute_after_connect (c c' : client) pool' tr1 :
  connected c = false ->
  connect cfg now pool fs auth c = (c', pool', tr1, CRet true) ->
  safe_execute cfg now pool fs auth remote c =
    (c', pool', tr1 ++ (exec_loop cfg remote (attempts cfg) 0).1,
                (exec_loop cfg remote (attempts cfg) 0).2).
Proof.
  intros H Hc. unfold safe_execute. rewrite H, Hc.
  by destruct (exec_loop cfg remote (attempts cfg) 0).
Qed.
End SafeExecute.

End ExecFacts.

(** C1 (counterexample): with the default [MAX_RETRIES = 5] and a remote
    side that answers every call with a 5-second flood wait, a connected
    client's [safe_execute] makes exactly five calls, sleeps five times
    and returns [None]: the fifth flood wait is not followed by a retry,
    so flood-wait retries are bounded by the attempt budget. *)
Lemma safe_execute_flood_budget_counterexample :
  Client.safe_execute Client.default_config 0 [] ∅ (fun _ => Client.AConnected)
    (fun _ => Client.RFlood 5) (Client.mk_client "sessions/15550001111.session" true (Some "1AAA"))
  = (Client.mk_client "sessions/15550001111.session" true (Some "1AAA"), [],
     [Client.ECall 0; Client.ESleep 5; Client.ECall 1; Client.ESleep 5;
      Client.ECall 2; Client.ESleep 5; Client.ECall 3; Client.ESleep 5;
      Client.ECall 4; Client.ESleep 5],
     Client.Return None).
Proof. reflexivity. Qed.

Module ConnectCalls.
Import Client.

Lemma calls_app (tr1 tr2 : list event) : calls (tr1 ++ tr2) = (calls tr1 + calls tr2)%nat.
Proof.
  induction tr1 as [|e tr1 IH]; simpl; [done|]. destruct e; simpl; by rewrite IH.
Qed.

(** [connect] makes no remote call: its trace holds connection attempts
    and sleeps only. *)
Lemma connect_loop_no_calls (cfg : config) (auth : nat -> attempt_result) :
  ∀ n a conn, calls (connect_loop cfg auth n a conn).1.2 = 0%nat.
Proof.
  induction n as [|n IH]; intros a conn; simpl; [done|].
  destruct (auth a).
  - pose proof (IH (S a) conn) as H.
    destruct (connect_loop cfg auth n (S a) conn) as [[c tr] r]. simpl in H.
    destruct (bool_decide _); simpl; done.
  - done.
  - pose proof (IH (S a) true) as H.
    destruct (connect_loop cfg auth n (S a) true) as [[c tr] r]. simpl in H.
    destruct (bool_decide _); simpl; done.
  - done.
Qed.

Lemma connect_no_calls cfg now pool fs auth c :
  calls (connect cfg now pool fs auth c).1.2 = 0%nat.
Proof.
  unfold connect. destruct (connected c); [done|].
  destruct (SecureConfig.get_available_api now pool) as [[pool' a]|]; [|done].
  pose proof (connect_loop_no_calls cfg auth (attempts cfg) 0 false) as H.
  destruct (connect_loop cfg auth (attempts cfg) 0 false) as [[conn tr] r].
  exact H.
Qed.

(** When [connect] gives [True] (at once for a connected client),
    [safe_execute] runs its attempt loop after the trace of [connect]. *)
Lemma safe_execute_connect_ok cfg now pool fs auth remote c c' pool' tr1 :
  connect cfg now pool fs auth c = (c', pool', tr1, CRet true) ->
  (safe_execute cfg now pool fs auth remote c).1.2 =
    tr1 ++ (exec_loop cfg remote (attempts cfg) 0).1 ∧
  (safe_execute cfg now pool fs auth remote c).2 = (exec_loop cfg remote (attempts cfg) 0).2 ∧
  calls tr1 = 0%nat.
Proof.
  intros Hc.
  assert (H0 : calls tr1 = 0%nat)
    by (pose proof (connect_no_calls cfg now pool fs auth c) as H; by rewrite Hc in H).
  destruct (connected c) eqn:Hconn.
  - unfold connect in Hc. rewrite Hconn in Hc. injection Hc as <- <- <-.
    rewrite (ExecFacts.safe_execute_connected cfg now pool fs auth remote c Hconn). done.
  - rewrite (ExecFacts.safe_execute_after_connect cfg now pool fs auth remote c c' pool' tr1
               Hconn Hc). done.
Qed.
End ConnectCalls.

(** C1 (amended): when the call of attempt [k] (reached through attempts
    that did not return) gets a flood wait of [s] seconds, whether the
    client was connected already or [safe_execute]'s own [connect]
    succeeded, [safe_execute] sleeps [min s 3600]; it then retries the
    same call as attempt [k + 1] when [k + 1 < MAX_RETRIES], and returns
    [None] when [k] was the last attempt. Flood waits consume the same
    [MAX_RETRIES] budget: at most [MAX_RETRIES] calls are made in all. *)
Theorem safe_execute_flood_wait (cfg : Client.config) (now : Z)
    (pool : list SecureConfig.api) (fs : Client.files)
    (auth : nat -> Client.attempt_result) (remote : nat -> Client.response)
    (c : Client.client) (k : nat) (s : Z) :
  (∃ c' pool' tr1, Client.connect cfg now pool fs auth c = (c', pool', tr1, Client.CRet true)) ->
  (k < Client.attempts cfg)%nat ->
  remote k = Client.RFlood s ->
  (∀ j, (j < k)%nat -> Client.continues (remote j) = true) ->
  let r := Client.safe_execute cfg now pool fs auth remote c in
  (∃ pre post,
     r.1.2 = pre ++ Client.ECall k :: Client.ESleep (Z.min s 3600) :: post ∧
     (S k = Client.attempts cfg :> nat -> post = [] ∧ r.2 = Client.Return None) ∧
     ((S k < Client.attempts cfg)%nat -> ∃ post', post = Client.ECall (S k) :: post')) ∧
  (Client.calls r.1.2 <= Client.attempts cfg)%nat.
Proof.
  intros (c' & pool' & tr1 & Hconn) Hk Hr Hbefore r. subst r.
  destruct (ConnectCalls.safe_execute_connect_ok cfg now pool fs auth remote c c' pool' tr1 Hconn)
    as (Htr & Ho & H0).
  rewrite Htr, Ho. split.
  2:{ rewrite ConnectCalls.calls_app, H0. apply ExecFacts.exec_loop_calls. }
  destruct (ExecFacts.exec_loop_flood cfg remote s k (Client.attempts cfg) 0
              ltac:(lia) Hk Hr Hbefore) as (pre & H1 & H2).
  simpl in H1, H2. rewrite H1, H2.
  exists (tr1 ++ pre), (Client.exec_loop cfg remote (Client.attempts cfg - S k) (S k)).1.
  split; [by rewrite app_assoc|]. split.
  - intros Heq. rewrite <- Heq, Nat.sub_diag. done.
  - intros Hlt. destruct (Client.attempts cfg - S k)%nat as [|m] eqn:Hm; [lia|].
    apply ExecFacts.exec_loop_head.
Qed.

Lemma safe_execute_flood_wait_witness :
  let r := Client.safe_execute Client.default_config 0 SecureConfig.API_POOL ∅
             (fun _ => Client.AConnected)
             (fun j => if Nat.eqb j 2 then Client.RFlood 7200 else Client.RErr 1)
             (Client.mk_client "sessions/15550001111.session" false None) in
  (∃ pre post,
     r.1.2 = pre ++ Client.ECall 2 :: Client.ESleep (Z.min 7200 3600) :: post ∧
     (S 2 = Client.attempts Client.default_config :> nat -> post = [] ∧ r.2 = Client.Return None) ∧
     ((S 2 < Client.attempts Client.default_config)%nat ->
        ∃ post', post = Client.ECall (S 2) :: post')) ∧
  (Client.calls r.1.2 <= Client.attempts Client.default_config)%nat.
Proof.
  apply (safe_execute_flood_wait Client.default_config 0 SecureConfig.API_POOL ∅
           (fun _ => Client.AConnected)
           (fun j => if Nat.eqb j 2 then Client.RFlood 7200 else Client.RErr 1)
           (Client.mk_client "sessions/15550001111.session" false None) 2 7200).
  - eexists _, _, _. reflexivity.
  - vm_compute. lia.
  - reflexivity.
  - intros j Hj. destruct j as [|[|j]]; [reflexivity|reflexivity|lia].
Defined.

(** C3: on a connected client with [MAX_RETRIES = 5], two transient
    failures followed by a success make [safe_execute] return the result
    after sleeping [RETRY_DELAY * 2^0] and [RETRY_DELAY * 2^1], in total
    [RETRY_DELAY * (2^0 + 2^1)]. In general, when every one of the
    [MAX_RETRIES >= 1] attempts fails with a non-flood error, attempt [j]
    is followed by a sleep of [RETRY_DELAY * 2^j] except the last one,
    all [MAX_RETRIES] calls are made, and the last failure is re-raised. *)
Theorem safe_execute_transient_backoff (cfg : Client.config) (now : Z)
    (pool : list SecureConfig.api) (fs : Client.files)
    (auth : nat -> Client.attempt_result) (remote : nat -> Client.response)
    (c : Client.client) :
  Client.connected c = true ->
  let r := Client.safe_execute cfg now pool fs auth remote c in
  (∀ e0 e1 v, Client.MAX_RETRIES cfg = 5 ->
     remote 0%nat = Client.RErr e0 -> remote 1%nat = Client.RErr e1 ->
     remote 2%nat = Client.ROk v ->
     r.2 = Client.Return (Some v) ∧
     Client.sleeps r.1.2 = [Client.backoff cfg 0; Client.backoff cfg 1] ∧
     foldr Z.add 0 (Client.sleeps r.1.2) = Client.RETRY_DELAY cfg * (2 ^ 0 + 2 ^ 1)) ∧
  (∀ err : nat -> nat, (1 <= Client.attempts cfg)%nat ->
     (∀ j, (j < Client.attempts cfg)%nat -> remote j = Client.RErr (err j)) ->
     r.2 = Client.Raise (Client.ExRemote (err (Client.attempts cfg - 1)%nat)) ∧
     Client.sleeps r.1.2 = map (Client.backoff cfg) (seq 0 (Client.attempts cfg - 1)) ∧
     Client.calls r.1.2 = Client.attempts cfg).
Proof.
  intros Hc r. subst r.
  rewrite ExecFacts.safe_execute_connected by exact Hc. simpl. split.
  - intros e0 e1 v Hmax H0 H1 H2.
    unfold Client.attempts. rewrite Hmax. simpl.
    rewrite H0, Hmax. simpl. rewrite H1. simpl. rewrite H2. simpl.
    unfold Client.backoff. simpl. repeat split. lia.
  - intros err Hn Herr.
    destruct (ExecFacts.exec_loop_all_errors cfg remote err (Client.attempts cfg) 0
                ltac:(lia) Hn ltac:(intros j Hj; apply Herr; lia)) as (Hs & Hcl & Ho).
    rewrite Hs, Hcl, Ho. done.
Qed.

Lemma safe_execute_transient_backoff_witness :
  let r := Client.safe_execute Client.default_config 0 [] ∅ (fun _ => Client.AConnected)
             (fun j => if Nat.ltb j 2 then Client.RErr 9 else Client.ROk 42)
             (Client.mk_client "sessions/15550001111.session" true (Some "1AAA")) in
  (∀ e0 e1 v, Client.MAX_RETRIES Client.default_config = 5 ->
     (if Nat.ltb 0 2 then Client.RErr 9 else Client.ROk 42) = Client.RErr e0 ->
     (if Nat.ltb 1 2 then Client.RErr 9 else Client.ROk 42) = Client.RErr e1 ->
     (if Nat.ltb 2 2 then Client.RErr 9 else Client.ROk 42) = Client.ROk v ->
     r.2 = Client.Return (Some v) ∧
     Client.sleeps r.1.2 = [Client.backoff Client.default_config 0;
                            Client.backoff Client.default_config 1] ∧
     foldr Z.add 0 (Client.sleeps r.1.2) =
       Client.RETRY_DELAY Client.default_config * (2 ^ 0 + 2 ^ 1)) ∧
  (∀ err : nat -> nat, (1 <= Client.attempts Client.default_config)%nat ->
     (∀ j, (j < Client.attempts Client.default_config)%nat ->
        (if Nat.ltb j 2 then Client.RErr 9 else Client.ROk 42) = Client.RErr (err j)) ->
     r.2 = Client.Raise (Client.ExRemote (err (Client.attempts Client.default_config - 1)%nat)) ∧
     Client.sleeps r.1.2 =
       map (Client.backoff Client.default_config) (seq 0 (Client.attempts Client.default_config - 1)) ∧
     Client.calls r.1.2 = Client.attempts Client.default_config).
Proof.
  apply (safe_execute_transient_backoff Client.default_config 0 [] ∅
           (fun _ => Client.AConnected)
           (fun j => if Nat.ltb j 2 then Client.RErr 9 else Client.ROk 42)
           (Client.mk_client "sessions/15550001111.session" true (Some "1AAA"))).
  reflexivity.
Defined.

(** C10: [safe_execute] returns [None] without raising when the client
    is not connected and its inner [connect] returns [False]; and, on a
    connected client (or once [connect] returned [True]), when each of
    the [MAX_RETRIES] attempts ends in a flood wait. *)
Theorem safe_execute_returns_none (cfg : Client.config) (now : Z)
    (pool : list SecureConfig.api) (fs : Client.files)
    (auth : nat -> Client.attempt_result) (remote : nat -> Client.response)
    (c : Client.client) :
  let r := Client.safe_execute cfg now pool fs auth remote c in
  (Client.connected c = false ->
     (Client.connect cfg now pool fs auth c).2 = Client.CRet false ->
     r.2 = Client.Return None) ∧
  (Client.connected c = true ∨ (Client.connect cfg now pool fs auth c).2 = Client.CRet true ->
     (∀ j, (j < Client.attempts cfg)%nat -> ∃ s, remote j = Client.RFlood s) ->
     r.2 = Client.Return None).
Proof.
  intros r. subst r. split.
  - intros Hc Hconn. unfold Client.safe_execute. rewrite Hc.
    destruct (Client.connect cfg now pool fs auth c) as [[[c' pool'] tr1] o].
    simpl in Hconn. subst o. done.
  - intros Hc Hf.
    assert (Hl := ExecFacts.exec_loop_all_floods cfg remote (Client.attempts cfg) 0
                    ltac:(intros j Hj; apply Hf; lia)).
    destruct (Client.connected c) eqn:Hcon.
    + rewrite ExecFacts.safe_execute_connected by exact Hcon. exact Hl.
    + destruct Hc as [Hc|Hc]; [discriminate|].
      destruct (Client.connect cfg now pool fs auth c) as [[[c' pool'] tr1] o] eqn:Hcn.
      simpl in Hc. subst o.
      rewrite (ExecFacts.safe_execute_after_connect cfg now pool fs auth remote c c' pool' tr1)
        by assumption.
      exact Hl.
Qed.

Lemma safe_execute_returns_none_witness :
  (Client.safe_execute Client.default_config 0 SecureConfig.API_POOL ∅
     (fun _ => Client.ANotAuthorized) (fun _ => Client.ROk 1)
     (Client.mk_client "sessions/15550001111.session" false None)).2 = Client.Return None ∧
  (Client.safe_execute Client.default_config 0 [] ∅ (fun _ => Client.AConnected)
     (fun _ => Client.RFlood 30)
     (Client.mk_client "sessions/15550001111.session" true (Some "1AAA"))).2 = Client.Return None.
Proof.
  split.
  - apply (proj1 (safe_execute_returns_none Client.default_config 0 SecureConfig.API_POOL ∅
                    (fun _ => Client.ANotAuthorized) (fun _ => Client.ROk 1)
                    (Client.mk_client "sessions/15550001111.session" false None)));
      reflexivity.
  - apply (proj2 (safe_execute_returns_none Client.default_config 0 [] ∅
                    (fun _ => Client.AConnected) (fun _ => Client.RFlood 30)
                    (Client.mk_client "sessions/15550001111.session" true (Some "1AAA")))).
    + left. reflexivity.
    + intros j _. exists 30. reflexivity.
Defined.

Module ConnectFacts.
Import Client.

(** Attempts of [connect] that end in an exception and go on. *)
Definition fails (r : attempt_result) : bool :=
  match r with AFailBeforeMark | AFailAfterMark => true | _ => false end.

(** A not-authorized answer at iteration [a + k], reached through failing
    iterations, ends the loop there with [False]. *)
Lemma connect_loop_not_authorized (cfg : config) (auth : nat -> attempt_result) (k : nat) :
  ∀ (n a : nat) (conn : bool), (k < n)%nat ->
  auth (a + k)%nat = ANotAuthorized ->
  (∀ j, (j < k)%nat -> fails (auth (a + j)%nat) = true) ->
  ∃ pre conn', connect_loop cfg auth n a conn = (conn', pre ++ [EConnect (a + k)], false) ∧
    (k = 0%nat -> pre = []).
Proof.
  induction k as [|k IH]; intros n a conn Hk Hr Hf; destruct n as [|n]; try lia; simpl.
  - rewrite Nat.add_0_r in Hr |- *. rewrite Hr. by exists [], conn.
  - assert (H0 := Hf 0%nat ltac:(lia)). rewrite Nat.add_0_r in H0.
    assert (Hr' : auth (S a + k)%nat = ANotAuthorized)
      by (by replace (S a + k)%nat with (a + S k)%nat by lia).
    assert (Hf' : ∀ j, (j < k)%nat -> fails (auth (S a + j)%nat) = true)
      by (intros j Hj; replace (S a + j)%nat with (a + S j)%nat by lia; apply Hf; lia).
    replace (a + S k)%nat with (S a + k)%nat by lia.
    destruct (auth a) eqn:Ha; try discriminate.
    + destruct (IH n (S a) conn ltac:(lia) Hr' Hf') as (pre & c' & Hl & _).
      rewrite Hl. destruct (bool_decide _).
      * exists (EConnect a :: ESleep (backoff cfg a) :: pre), c'. split; [done|lia].
      * exists (EConnect a :: pre), c'. split; [done|lia].
    + destruct (IH n (S a) true ltac:(lia) Hr' Hf') as (pre & c' & Hl & _).
      rewrite Hl. destruct (bool_decide _).
      * exists (EConnect a :: ESleep (backoff cfg a) :: pre), c'. split; [done|lia].
      * exists (EConnect a :: pre), c'. split; [done|lia].
Qed.
End ConnectFacts.

(** C4: when a not-connected client's [connect] obtains an API entry and
    the first attempt finds the session not authorized, [connect]
    returns [False] after that single attempt, with no retry and no
    sleep. More generally a not-authorized answer at any attempt, reached
    through failed attempts, ends [connect] with [False] at once. *)
Theorem connect_not_authorized (cfg : Client.config) (now : Z)
    (pool : list SecureConfig.api) (fs : Client.files)
    (auth : nat -> Client.attempt_result) (c : Client.client) :
  Client.connected c = false ->
  SecureConfig.get_available_api now pool <> None ->
  let r := Client.connect cfg now pool fs auth c in
  ((1 <= Client.attempts cfg)%nat -> auth 0%nat = Client.ANotAuthorized ->
     r.2 = Client.CRet false ∧ r.1.2 = [Client.EConnect 0]) ∧
  (∀ k, (k < Client.attempts cfg)%nat -> auth k = Client.ANotAuthorized ->
     (∀ j, (j < k)%nat -> ConnectFacts.fails (auth j) = true) ->
     r.2 = Client.CRet false ∧ ∃ pre, r.1.2 = pre ++ [Client.EConnect k]).
Proof.
  intros Hc Hp r. subst r. unfold Client.connect. rewrite Hc.
  destruct (SecureConfig.get_available_api now pool) as [[pool' a]|]; [|done].
  split.
  - intros Hn H0.
    destruct (ConnectFacts.connect_loop_not_authorized cfg auth 0 (Client.attempts cfg) 0 false
                ltac:(lia) H0 ltac:(intros; lia)) as (pre & c' & Hl & Hpre).
    rewrite Hl, Hpre by done. done.
  - intros k Hk Hr Hf.
    destruct (ConnectFacts.connect_loop_not_authorized cfg auth k (Client.attempts cfg) 0 false
                Hk Hr Hf) as (pre & c' & Hl & _).
    rewrite Hl. simpl. eauto.
Qed.

Lemma connect_not_authorized_witness :
  Client.connected (Client.mk_client "sessions/15550001111.session" false None) = false ∧
  SecureConfig.get_available_api 0 SecureConfig.API_POOL <> None ∧
  (Client.connect Client.default_config 0 SecureConfig.API_POOL ∅
     (fun _ => Client.ANotAuthorized)
     (Client.mk_client "sessions/15550001111.session" false None)).2 = Client.CRet false.
Proof.
  split; [reflexivity|]. split; [discriminate|].
  apply (proj1 (connect_not_authorized Client.default_config 0 SecureConfig.API_POOL ∅
                  (fun _ => Client.ANotAuthorized)
                  (Client.mk_client "sessions/15550001111.session" false None)
                  eq_refl ltac:(discriminate))); [vm_compute; lia | reflexivity].
Defined.




Module MigrationFacts.
Import Registry.

(** No two names of a list of migrations are equal up to case. *)
Fixpoint ci_distinct (ms : list (string * value)) : Prop :=
  match ms with
  | [] => True
  | m :: ms' => (∀ m', m' ∈ ms' -> name_eq_ci m'.1 m.1 = false) ∧ ci_distinct ms'
  end.

Lemma migrations_ci_distinct : ci_distinct migrations.
Proof.
  simpl. repeat split; intros m' Hm';
    repeat (apply elem_of_cons in Hm' as [->|Hm']; [reflexivity|]);
    by apply elem_of_nil in Hm'.
Qed.

Lemma existsb_elem (f : string -> bool) (l : list string) :
  existsb f l = true ↔ ∃ c, c ∈ l ∧ f c = true.
Proof.
  rewrite existsb_exists. split; intros (c & H1 & H2); exists c; split; try done;
    by apply list_elem_of_In.
Qed.

Lemma run_spec (t0 : table) (ms : list (string * value)) :
  ci_distinct ms ->
  ∀ (acc : table) (ext : list string) (d : list value),
  columns acc = columns t0 ++ ext ->
  rows acc = map (fun r => r ++ d) (rows t0) ->
  length ext = length d ->
  (∀ c, c ∈ ext -> c ∉ columns t0) ->
  (∀ c m, c ∈ ext -> m ∈ ms -> name_eq_ci m.1 c = false) ->
  ∃ ext' d',
    columns (run_migrations (columns t0) ms acc).1 = columns t0 ++ ext' ∧
    rows (run_migrations (columns t0) ms acc).1 = map (fun r => r ++ d') (rows t0) ∧
    length ext' = length d' ∧
    (∀ c, c ∈ ext' -> c ∉ columns t0) ∧
    (∀ c, c ∈ ext -> c ∈ ext') ∧
    ((run_migrations (columns t0) ms acc).2 = true ∧
       ¬ (∃ m, m ∈ ms ∧ (m.1 ∉ columns t0) ∧
               ∃ c, c ∈ columns t0 ∧ name_eq_ci m.1 c = true) ∨
     (run_migrations (columns t0) ms acc).2 = false ∧
       ∃ m, m ∈ ms ∧ (m.1 ∉ columns t0) ∧
            ∃ c, c ∈ columns t0 ∧ name_eq_ci m.1 c = true) ∧
    ((run_migrations (columns t0) ms acc).2 = true ->
       ∀ m, m ∈ ms -> m.1 ∈ columns t0 ∨ m.1 ∈ ext').
Proof.
  induction ms as [|m ms IH]; intros Hdist acc ext d Hc Hr Hl Hn Hci; simpl.
  - exists ext, d. do 5 (split; [by auto|]). split.
    + left. split; [done|]. intros (m & Hm & _). by apply elem_of_nil in Hm.
    + intros _ m Hm. by apply elem_of_nil in Hm.
  - destruct Hdist as [Hhead Hdist].
    assert (Hci' : ∀ c m', c ∈ ext -> m' ∈ ms -> name_eq_ci m'.1 c = false)
      by (intros c m' Hc' Hm'; apply Hci; [done|by apply elem_of_cons; right]).
    destruct (decide (m.1 ∈ columns t0)) as [Hm|Hm].
    + rewrite bool_decide_true by done.
      destruct (IH Hdist acc ext d Hc Hr Hl Hn Hci')
        as (ext' & d' & H1 & H2 & H3 & H4 & H5 & H6 & H7).
      exists ext', d'. do 5 (split; [by auto|]). split.
      * destruct H6 as [[Hok Hnb]|[Hok (m' & Hm' & Hrest)]].
        -- left. split; [done|]. intros (m' & Hm' & Hnot & Hex).
           apply elem_of_cons in Hm' as [->|Hm']; [done|]. apply Hnb. by exists m'.
        -- right. split; [done|]. exists m'. split; [by apply elem_of_cons; right|done].
      * intros Hok m' Hm'. apply elem_of_cons in Hm' as [->|Hm']; [by left|auto].
    + rewrite bool_decide_false by done. unfold alter_add. rewrite Hc, existsb_app.
      assert (Hext : existsb (name_eq_ci m.1) ext = false).
      { apply not_true_is_false. intros (c & Hc' & He)%existsb_elem.
        rewrite (Hci c m Hc' ltac:(by apply elem_of_cons; left)) in He. discriminate. }
      rewrite Hext, orb_false_r.
      destruct (existsb (name_eq_ci m.1) (columns t0)) eqn:He.
      * simpl. exists ext, d. do 5 (split; [by auto|]). split.
        -- right. split; [done|]. apply existsb_elem in He as (c & Hc' & He).
           exists m. split; [by apply elem_of_cons; left|]. split; [done|]. by exists c.
        -- discriminate.
      * destruct (IH Hdist (add_column acc m.1 m.2) (ext ++ [m.1]) (d ++ [m.2]))
          as (ext' & d' & H1 & H2 & H3 & H4 & H5 & H6 & H7).
        -- simpl. by rewrite Hc, app_assoc.
        -- simpl. rewrite Hr, map_map. apply map_ext. intros r. by rewrite app_assoc.
        -- rewrite !length_app. simpl. lia.
        -- intros c Hc'. apply elem_of_app in Hc' as [Hc'|Hc']; [auto|].
           by apply list_elem_of_singleton in Hc' as ->.
        -- intros c m' Hc' Hm'. apply elem_of_app in Hc' as [Hc'|Hc']; [by apply Hci'|].
           apply list_elem_of_singleton in Hc' as ->. by apply Hhead.
        -- exists ext', d'. do 4 (split; [by auto|]). split; [|split].
           ++ intros c Hc'. apply H5, elem_of_app. auto.
           ++ destruct H6 as [[Hok Hnb]|[Hok (m' & Hm' & Hrest)]].
              ** left. split; [done|]. intros (m' & Hm' & Hnot & Hex).
                 apply elem_of_cons in Hm' as [->|Hm'].
                 --- destruct Hex as (c & Hc' & Hce).
                     assert (existsb (name_eq_ci m.1) (columns t0) = true)
                       by (apply existsb_elem; by exists c).
                     congruence.
                 --- apply Hnb. by exists m'.
              ** right. split; [done|]. exists m'.
                 split; [by apply elem_of_cons; right|done].
           ++ intros Hok m' Hm'. apply elem_of_cons in Hm' as [->|Hm']; [|auto].
              right. apply H5, elem_of_app. right. by apply list_elem_of_singleton.
Qed.
End MigrationFacts.



(** C7: [disconnect] always returns, and a second [disconnect] right
    after the first, whatever happens inside either call, changes neither
    the client nor the files. *)
Theorem disconnect_twice (f1 f2 : Client.disconnect_fault) (fs : Client.files)
    (c : Client.client) :
  let r1 := Client.disconnect f1 fs c in
  Client.disconnect f2 r1.2 r1.1 = r1.
Proof.
  unfold Client.disconnect.
  destruct (Client.tg_client c) as [s|]; simpl; [|done].
  destruct (Client.connected c); simpl; [|done].
  by destruct f1.
Qed.

(** C8 (failing input): a connected client whose session file cannot be
    opened for writing. [disconnect] swallows the error and drops the
    client object, but [_connected] stays [True] (as it does when
    [os.chmod] or [client.disconnect()] raises), so the client is not
    in the disconnected state. *)
Lemma disconnect_write_failure :
  Client.disconnect Client.WriteFails ∅
    (Client.mk_client "sessions/15550001111.session" true (Some "1AAA"))
  = (Client.mk_client "sessions/15550001111.session" true None, ∅) ∧
  Client.connected
    (Client.disconnect Client.CloseFails ∅
       (Client.mk_client "sessions/15550001111.session" true (Some "1AAA"))).1 = true.
Proof. split; reflexivity. Qed.

Module GatherFacts.
Import Gather.

Lemma step_cons (x : phase) (l l' : list phase) : step l l' -> step (x :: l) (x :: l').
Proof.
  intros H. destruct H as [pre post|pre post].
  - apply (step_start (x :: pre) post).
  - apply (step_finish (x :: pre) post).
Qed.

Lemma start_all (k : nat) : rtc step (repeat Ready k) (repeat InFlight k).
Proof.
  induction k as [|k IH]; simpl; [done|].
  eapply rtc_l; [apply (step_start [] (repeat Ready k))|]. simpl.
  apply (rtc_congruence (R := step) (cons InFlight) step); [apply step_cons|exact IH].
Qed.

Lemma in_flight_all (k : nat) : in_flight (repeat InFlight k) = k.
Proof. induction k; simpl; auto. Qed.
End GatherFacts.

(** C9 (counterexample): five [safe_execute] calls gathered on a
    connected client, as [delete_chats] does for channels, can all have
    their remote call in flight at once, one more than the default
    [CONCURRENT_CONNECTIONS = 4]: no permit bounds them. *)
Lemma gather_exceeds_bound_counterexample :
  rtc Gather.step (repeat Gather.Ready 5) (repeat Gather.InFlight 5) ∧
  Gather.in_flight (repeat Gather.InFlight 5) = 5%nat ∧
  SecureConfig.CONCURRENT_CONNECTIONS_default < Z.of_nat (Gather.in_flight (repeat Gather.InFlight 5)).
Proof.
  split; [apply GatherFacts.start_all|]. split; [reflexivity|].
  vm_compute. reflexivity.
Qed.

(** C9 (amended): [safe_execute] acquires no concurrency permit and
    [CONCURRENT_CONNECTIONS] is read but never used: any number [k] of
    [safe_execute] calls gathered on a connected client can reach a
    state where all [k] remote calls are in flight together. *)
Theorem gather_all_in_flight (k : nat) :
  rtc Gather.step (repeat Gather.Ready k) (repeat Gather.InFlight k) ∧
  Gather.in_flight (repeat Gather.InFlight k) = k.
Proof. split; [apply GatherFacts.start_all | apply GatherFacts.in_flight_all]. Qed.

(** X8: [get_available_api] keeps every usage counter of the pool
    between 0 and the ceiling of 100: if all counters are in that range
    before a successful call, they still are after it, the returned entry
    has counted at least one use, and the pool keeps its entries, in
    order, with their API ids and hashes. *)
Theorem get_available_api_counts_bounded (now : Z) (pool pool' : list SecureConfig.api)
    (a' : SecureConfig.api) :
  Forall (fun b => 0 <= SecureConfig.count (SecureConfig.api_limits b) <= SecureConfig.usage_ceiling) pool ->
  SecureConfig.get_available_api now pool = Some (pool', a') ->
  Forall (fun b => 0 <= SecureConfig.count (SecureConfig.api_limits b) <= SecureConfig.usage_ceiling) pool' ∧
  1 <= SecureConfig.count (SecureConfig.api_limits a') ∧
  SecureConfig.API_ID <$> pool' = SecureConfig.API_ID <$> pool ∧
  SecureConfig.API_HASH <$> pool' = SecureConfig.API_HASH <$> pool.
Proof.
  intros Hall Hget.
  pose proof (PoolFacts.get_available_api_spec now pool) as H.
  rewrite Hget in H. destruct H as (i & a & Hi & _ & Hq & -> & ->).
  assert (Ha : 0 <= SecureConfig.count (SecureConfig.api_limits a) <= SecureConfig.usage_ceiling)
    by (rewrite Forall_lookup in Hall; exact (Hall i a Hi)).
  assert (Ht : 1 <= SecureConfig.count (SecureConfig.api_limits (SecureConfig.touch now a))
               <= SecureConfig.usage_ceiling).
  { unfold SecureConfig.touch, SecureConfig.qualifies in *; simpl.
    destruct (SecureConfig.cooled_down now (SecureConfig.api_limits a)).
    - unfold SecureConfig.usage_ceiling. lia.
    - rewrite orb_false_r in Hq. apply bool_decide_eq_true in Hq. lia. }
  split; [apply Forall_insert; [done|lia]|].
  split; [lia|].
  rewrite !list_fmap_insert.
  split; apply list_insert_id; rewrite list_lookup_fmap, Hi; done.
Qed.

Lemma get_available_api_counts_bounded_witness :
  (∃ pool' a',
   SecureConfig.get_available_api (SecureConfig.cooldown_us + 10)
     [SecureConfig.mk_api 1 "h" (SecureConfig.mk_limits (Some 0) 100);
      SecureConfig.mk_api 2 "g" (SecureConfig.mk_limits None 99)] = Some (pool', a') ∧
   Forall (fun b => 0 <= SecureConfig.count (SecureConfig.api_limits b) <= SecureConfig.usage_ceiling) pool' ∧
   1 <= SecureConfig.count (SecureConfig.api_limits a') ∧
   SecureConfig.API_ID <$> pool' = [1; 2] ∧
   SecureConfig.API_HASH <$> pool' = ["h"; "g"]%string) ∧
  (∃ pool' a',
   SecureConfig.get_available_api 10
     [SecureConfig.mk_api 1 "h" (SecureConfig.mk_limits (Some 0) 100);
      SecureConfig.mk_api 2 "g" (SecureConfig.mk_limits None 99)] = Some (pool', a') ∧
   Forall (fun b => 0 <= SecureConfig.count (SecureConfig.api_limits b) <= SecureConfig.usage_ceiling) pool' ∧
   1 <= SecureConfig.count (SecureConfig.api_limits a') ∧
   SecureConfig.API_ID <$> pool' = [1; 2] ∧
   SecureConfig.API_HASH <$> pool' = ["h"; "g"]%string).
Proof.
  split.
  - destruct (SecureConfig.get_available_api (SecureConfig.cooldown_us + 10)
                [SecureConfig.mk_api 1 "h" (SecureConfig.mk_limits (Some 0) 100);
                 SecureConfig.mk_api 2 "g" (SecureConfig.mk_limits None 99)])
      as [[pool' a']|] eqn:Hg; [|discriminate].
    exists pool', a'. split; [reflexivity|].
    apply (get_available_api_counts_bounded (SecureConfig.cooldown_us + 10)
             [SecureConfig.mk_api 1 "h" (SecureConfig.mk_limits (Some 0) 100);
              SecureConfig.mk_api 2 "g" (SecureConfig.mk_limits None 99)]); [|exact Hg].
    repeat constructor; unfold SecureConfig.usage_ceiling; simpl; lia.
  - destruct (SecureConfig.get_available_api 10
                [SecureConfig.mk_api 1 "h" (SecureConfig.mk_limits (Some 0) 100);
                 SecureConfig.mk_api 2 "g" (SecureConfig.mk_limits None 99)])
      as [[pool' a']|] eqn:Hg; [|discriminate].
    exists pool', a'. split; [reflexivity|].
    apply (get_available_api_counts_bounded 10
             [SecureConfig.mk_api 1 "h" (SecureConfig.mk_limits (Some 0) 100);
              SecureConfig.mk_api 2 "g" (SecureConfig.mk_limits None 99)]); [|exact Hg].
    repeat constructor; unfold SecureConfig.usage_ceiling; simpl; lia.
Defined.

Module ConnectLoopFacts.
Import Client.

(** The trace of [connect] when every attempt of [range(MAX_RETRIES)]
    fails: each attempt, followed by its backoff sleep unless it is the
    last one. *)
Definition failing_trace (cfg : config) (a n : nat) : list event :=
  flat_map (fun k => EConnect k ::
              if bool_decide (S k < attempts cfg)%nat then [ESleep (backoff cfg k)] else [])
           (seq a n).

Lemma connect_loop_all_fail (cfg : config) (auth : nat -> attempt_result) :
  ∀ n a conn, (a + n = attempts cfg)%nat ->
  (∀ k, (a <= k < a + n)%nat -> ConnectFacts.fails (auth k) = true) ->
  let '(c, tr, r) := connect_loop cfg auth n a conn in
  r = false ∧ tr = failing_trace cfg a n ∧
  (c = true ↔ conn = true ∨ ∃ k, (a <= k < a + n)%nat ∧ auth k = AFailAfterMark).
Proof.
  induction n as [|n IH]; intros a conn Hn Hf; simpl.
  - split; [done|]. split; [done|]. split; [by left|]. intros [?|(k & Hk & _)]; [done|lia].
  - assert (Hcond : bool_decide (Z.of_nat a < MAX_RETRIES cfg - 1) =
                    bool_decide (S a < attempts cfg)%nat).
    { apply bool_decide_ext. unfold attempts in *. lia. }
    assert (Hfa := Hf a ltac:(lia)).
    assert (Hf' : ∀ k, (S a <= k < S a + n)%nat -> ConnectFacts.fails (auth k) = true)
      by (intros k Hk; apply Hf; lia).
    assert (Hn' : (S a + n = attempts cfg)%nat) by lia.
    destruct (auth a) eqn:Ha; try discriminate.
    + pose proof (IH (S a) conn Hn' Hf') as IHa.
      destruct (connect_loop cfg auth n (S a) conn) as [[c tr] r].
      destruct IHa as (-> & -> & Hc).
      assert (Hiff : c = true ↔
                     conn = true ∨ ∃ k, (a <= k < a + S n)%nat ∧ auth k = AFailAfterMark).
      { rewrite Hc. split.
        - intros [?|(k & Hk & Hak)]; [by left|right; exists k; split; [lia|done]].
        - intros [?|(k & Hk & Hak)]; [by left|right].
          destruct (decide (k = a)) as [->|]; [congruence|].
          exists k. split; [lia|done]. }
      rewrite Hcond. unfold failing_trace. cbn [seq flat_map].
      destruct (bool_decide (S a < attempts cfg)%nat); simpl; auto.
    + pose proof (IH (S a) true Hn' Hf') as IHa.
      destruct (connect_loop cfg auth n (S a) true) as [[c tr] r].
      destruct IHa as (-> & -> & Hc).
      assert (Hiff : c = true ↔
                     conn = true ∨ ∃ k, (a <= k < a + S n)%nat ∧ auth k = AFailAfterMark).
      { split; [intros _; right; exists a; split; [lia|done]|].
        intros _. apply Hc. by left. }
      rewrite Hcond. unfold failing_trace. cbn [seq flat_map].
      destruct (bool_decide (S a < attempts cfg)%nat); simpl; auto.
Qed.
End ConnectLoopFacts.

(** X9: when the client is not connected, the pool has an entry to give,
    and every one of the [MAX_RETRIES] attempts of [connect] raises,
    [connect] returns [False] after trying them all, sleeping
    [RETRY_DELAY * 2 ** attempt] after each attempt but the last, with
    no cap on the delay; the client's [_connected] flag is nevertheless
    left [True] when some attempt raised after setting it (in the
    registry update), so a later [connect] or [safe_execute] takes the
    client as connected. *)
Theorem connect_all_attempts_fail (cfg : Client.config) (now : Z)
    (pool pool1 : list SecureConfig.api) (a1 : SecureConfig.api)
    (fs : Client.files) (auth : nat -> Client.attempt_result) (c : Client.client)
    (c' : Client.client) (pool' : list SecureConfig.api) (tr : list Client.event)
    (o : Client.conn_outcome) :
  Client.connected c = false ->
  SecureConfig.get_available_api now pool = Some (pool1, a1) ->
  (∀ k, (k < Client.attempts cfg)%nat -> ConnectFacts.fails (auth k) = true) ->
  Client.connect cfg now pool fs auth c = (c', pool', tr, o) ->
  o = Client.CRet false ∧ pool' = pool1 ∧
  tr = ConnectLoopFacts.failing_trace cfg 0 (Client.attempts cfg) ∧
  (Client.connected c' = true ↔
     ∃ k, (k < Client.attempts cfg)%nat ∧ auth k = Client.AFailAfterMark).
Proof.
  intros Hc Hpool Hf Hconn. unfold Client.connect in Hconn.
  rewrite Hc, Hpool in Hconn.
  pose proof (ConnectLoopFacts.connect_loop_all_fail cfg auth (Client.attempts cfg) 0 false
                ltac:(lia) ltac:(intros k Hk; apply Hf; lia)) as H.
  destruct (Client.connect_loop cfg auth (Client.attempts cfg) 0 false) as [[conn tr0] r].
  injection Hconn as <- <- <- <-. destruct H as (-> & -> & Hcn).
  split; [done|]. split; [done|]. split; [done|].
  simpl. rewrite Hcn. split.
  - intros [?|(k & Hk & Hak)]; [done|]. exists k. split; [lia|done].
  - intros (k & Hk & Hak). right. exists k. split; [lia|done].
Qed.

Lemma connect_all_attempts_fail_witness :
  ∃ c' pool' tr o,
  Client.connect Client.default_config 0 SecureConfig.API_POOL ∅
    (fun k => if Nat.eqb k 2 then Client.AFailAfterMark else Client.AFailBeforeMark)
    (Client.mk_client "sessions/919741023014.session" false None) = (c', pool', tr, o) ∧
  o = Client.CRet false ∧
  Some pool' = option_map fst (SecureConfig.get_available_api 0 SecureConfig.API_POOL) ∧
  tr = ConnectLoopFacts.failing_trace Client.default_config 0 (Client.attempts Client.default_config) ∧
  (Client.connected c' = true ↔
     ∃ k, (k < Client.attempts Client.default_config)%nat ∧
       (if Nat.eqb k 2 then Client.AFailAfterMark else Client.AFailBeforeMark) = Client.AFailAfterMark).
Proof.
  destruct (Client.connect Client.default_config 0 SecureConfig.API_POOL ∅
    (fun k => if Nat.eqb k 2 then Client.AFailAfterMark else Client.AFailBeforeMark)
    (Client.mk_client "sessions/919741023014.session" false None)) as [[[c' pool'] tr] o] eqn:Hc.
  destruct (SecureConfig.get_available_api 0 SecureConfig.API_POOL) as [[pool1 a1]|] eqn:Hg;
    [|discriminate].
  exists c', pool', tr, o. split; [reflexivity|].
  destruct (connect_all_attempts_fail Client.default_config 0 SecureConfig.API_POOL pool1 a1 ∅
    (fun k => if Nat.eqb k 2 then Client.AFailAfterMark else Client.AFailBeforeMark)
    (Client.mk_client "sessions/919741023014.session" false None) c' pool' tr o
    eq_refl Hg ltac:(intros k _; simpl; destruct (Nat.eqb k 2); reflexivity) Hc)
    as (Ho & Hp & Ht & Hcn).
  split; [exact Ho|]. split; [simpl; by rewrite Hp|]. split; [exact Ht|exact Hcn].
Defined.

Module MigrationIdem.
Import Registry.

Lemma run_present (cols : list string) (ms : list (string * value)) (t : table) :
  (∀ m, m ∈ ms -> m.1 ∈ cols) -> run_migrations cols ms t = (t, true).
Proof.
  revert t. induction ms as [|m ms IH]; intros t Hall; simpl; [done|].
  rewrite bool_decide_true by (apply Hall; by apply elem_of_cons; left).
  apply IH. intros m' Hm'. apply Hall. by apply elem_of_cons; right.
Qed.

Lemma migrated_has_all (t t' : table) :
  apply_migrations (columns t) t = (t', true) ->
  ∀ m, m ∈ migrations -> m.1 ∈ columns t'.
Proof.
  intros Hrun.
  destruct (MigrationFacts.run_spec t migrations MigrationFacts.migrations_ci_distinct t [] []
              ltac:(by rewrite app_nil_r)
              ltac:(symmetry; erewrite map_ext; [apply map_id|]; intros r; apply app_nil_r)
              eq_refl ltac:(intros c Hc; by apply elem_of_nil in Hc)
              ltac:(intros c m Hc; by apply elem_of_nil in Hc))
    as (ext' & d' & Hcols & _ & _ & _ & _ & _ & Hm).
  unfold apply_migrations in Hrun. rewrite Hrun in Hcols, Hm. simpl in *.
  intros m Hin. rewrite Hcols, elem_of_app. exact (Hm eq_refl m Hin).
Qed.
End MigrationIdem.

(** X10: [_migrate_database] is idempotent: on the next start after a
    migration, or after the table was created fresh, every column of the
    [migrations] list is already present, no [ALTER TABLE] runs, and the
    table is left as it is. *)
Theorem migrate_database_idempotent (t t' : Registry.table) :
  (Registry.migrate_database (Some (Some t)) = Registry.MMigrated t' ∨
   Registry.migrate_database None = Registry.MCreated t') ->
  Registry.migrate_database (Some (Some t')) = Registry.MMigrated t'.
Proof.
  intros [Hm|Hc].
  - unfold Registry.migrate_database in Hm.
    destruct (Registry.apply_migrations (Registry.columns t) t) as [t1 ok] eqn:Hrun.
    destruct ok; [|discriminate]. injection Hm as <-.
    unfold Registry.migrate_database, Registry.apply_migrations.
    rewrite MigrationIdem.run_present; [done|].
    by apply (MigrationIdem.migrated_has_all t).
  - simpl in Hc. injection Hc as <-. reflexivity.
Qed.

Lemma migrate_database_idempotent_witness :
  Registry.migrate_database
    (Some (Some (Registry.apply_migrations ["phone"; "path"]
                   (Registry.mk_table ["phone"; "path"] [[Registry.VText "+1"; Registry.VNull]])).1)) =
  Registry.MMigrated (Registry.apply_migrations ["phone"; "path"]
                   (Registry.mk_table ["phone"; "path"] [[Registry.VText "+1"; Registry.VNull]])).1.
Proof.
  apply (migrate_database_idempotent
           (Registry.mk_table ["phone"; "path"] [[Registry.VText "+1"; Registry.VNull]])).
  left. reflexivity.
Defined.

Module ExecSuccess.
Import Client.

Lemma exec_loop_first_ok (cfg : config) (remote : nat -> response) (v k : nat) :
  ∀ n a, (a + n = attempts cfg)%nat -> (k < n)%nat ->
  remote (a + k)%nat = ROk v ->
  (∀ j, (j < k)%nat -> continues (remote (a + j)%nat) = true) ->
  (exec_loop cfg remote n a).2 = Return (Some v) ∧
  calls (exec_loop cfg remote n a).1 = S k.
Proof.
  induction k as [|k IH]; intros n a Hn Hk Hr Hc; destruct n as [|n]; try lia; simpl.
  - rewrite Nat.add_0_r in Hr. by rewrite Hr.
  - assert (H0 := Hc 0%nat ltac:(lia)). rewrite Nat.add_0_r in H0.
    assert (Hr' : remote (S a + k)%nat = ROk v)
      by (by replace (S a + k)%nat with (a + S k)%nat by lia).
    assert (Hc' : ∀ j, (j < k)%nat -> continues (remote (S a + j)%nat) = true)
      by (intros j Hj; replace (S a + j)%nat with (a + S j)%nat by lia; apply Hc; lia).
    destruct (IH n (S a) ltac:(lia) ltac:(lia) Hr' Hc') as [Ho Hcalls].
    destruct (remote a) as [w|s|e] eqn:Ha; [discriminate| |].
    + destruct (exec_loop cfg remote n (S a)) as [tr o]. simpl in *. split; [done|by rewrite Hcalls].
    + rewrite (ExecFacts.not_final cfg a (S n)) by lia.
      destruct (exec_loop cfg remote n (S a)) as [tr o]. simpl in *. split; [done|by rewrite Hcalls].
Qed.
End ExecSuccess.

(** X11: on a connected client, [safe_execute] returns the result of the
    first attempt whose call succeeds, provided it comes within the
    [MAX_RETRIES] attempts: flood waits and other exceptions before it
    are retried, the call is made exactly once per attempt up to that
    one, and neither the client nor the API pool is touched. *)
Theorem safe_execute_first_success (cfg : Client.config) (now : Z)
    (pool : list SecureConfig.api) (fs : Client.files)
    (auth : nat -> Client.attempt_result) (remote : nat -> Client.response)
    (c : Client.client) (k v : nat) :
  Client.connected c = true ->
  (k < Client.attempts cfg)%nat ->
  remote k = Client.ROk v ->
  (∀ j, (j < k)%nat -> Client.continues (remote j) = true) ->
  ∃ tr, Client.safe_execute cfg now pool fs auth remote c =
          (c, pool, tr, Client.Return (Some v)) ∧
        Client.calls tr = S k.
Proof.
  intros Hconn Hk Hr Hc.
  destruct (ExecSuccess.exec_loop_first_ok cfg remote v k (Client.attempts cfg) 0
              eq_refl Hk Hr Hc) as [Ho Hcalls].
  rewrite (ExecFacts.safe_execute_connected cfg now pool fs auth remote c Hconn), Ho.
  by eexists.
Qed.

Lemma safe_execute_first_success_witness :
  ∃ tr, Client.safe_execute Client.default_config 0 SecureConfig.API_POOL ∅
          (fun _ => Client.AConnected)
          (fun j => if Nat.eqb j 0 then Client.RFlood 30
                    else if Nat.eqb j 1 then Client.RErr 7 else Client.ROk 42)
          (Client.mk_client "sessions/919741023014.session" true (Some "s"))
        = (Client.mk_client "sessions/919741023014.session" true (Some "s"),
           SecureConfig.API_POOL, tr, Client.Return (Some 42%nat)) ∧
        Client.calls tr = 3%nat.
Proof.
  apply (safe_execute_first_success Client.default_config 0 SecureConfig.API_POOL ∅
           (fun _ => Client.AConnected) _ _ 2 42); [reflexivity | vm_compute; lia | reflexivity |].
  intros j Hj. destruct j as [|[|j]]; [reflexivity | reflexivity | lia].
Defined.

(** X12: [disconnect] always drops the Telegram client ([self.client =
    None]) and keeps the session path, whatever statement of its [try]
    block fails; the only file it can write is the client's own session
    file, and it writes nothing when the client was not connected. *)
Theorem disconnect_footprint (fault : Client.disconnect_fault) (fs : Client.files)
    (c : Client.client) :
  Client.tg_client (Client.disconnect fault fs c).1 = None ∧
  Client.session_path (Client.disconnect fault fs c).1 = Client.session_path c ∧
  (∀ p, p ≠ Client.session_path c -> (Client.disconnect fault fs c).2 !! p = fs !! p) ∧
  (Client.connected c = false -> (Client.disconnect fault fs c).2 = fs).
Proof.
  unfold Client.disconnect.
  destruct (Client.tg_client c) as [s|]; [|simpl; repeat split; done].
  destruct (Client.connected c) eqn:Hc; [|simpl; repeat split; done].
  destruct fault; simpl; (split; [done|]); (split; [done|]);
    (split; [intros p Hp; try (rewrite lookup_insert_ne; [done|congruence]); done
            |intros; discriminate]).
Qed.

(** X13: when no entry of the API pool qualifies, [connect] on a client
    that is not connected raises before any connection attempt, with the
    client and the pool unchanged, and [safe_execute] lets that
    exception out without calling the remote method. *)
Theorem connect_pool_exhausted (cfg : Client.config) (now : Z)
    (pool : list SecureConfig.api) (fs : Client.files)
    (auth : nat -> Client.attempt_result) (remote : nat -> Client.response)
    (c : Client.client) :
  Client.connected c = false ->
  (∀ b, b ∈ pool -> SecureConfig.qualifies now b = false) ->
  Client.connect cfg now pool fs auth c = (c, pool, [], Client.CPoolExhausted) ∧
  Client.safe_execute cfg now pool fs auth remote c =
    (c, pool, [], Client.Raise Client.ExPoolExhausted).
Proof.
  intros Hc Hall.
  assert (Hnone : SecureConfig.get_available_api now pool = None).
  { clear Hc. induction pool as [|a rest IH]; simpl; [done|].
    rewrite (Hall a) by (apply elem_of_cons; by left).
    rewrite IH; [done|]. intros b Hb. apply Hall. by apply elem_of_cons; right. }
  assert (Hconn : Client.connect cfg now pool fs auth c = (c, pool, [], Client.CPoolExhausted))
    by (unfold Client.connect; by rewrite Hc, Hnone).
  split; [exact Hconn|].
  unfold Client.safe_execute. by rewrite Hc, Hconn.
Qed.

Lemma connect_pool_exhausted_witness :
  let pool := [SecureConfig.mk_api 1 "h" (SecureConfig.mk_limits (Some 0) 100)] in
  let c := Client.mk_client "sessions/1.session" false None in
  Client.connect Client.default_config 10 pool ∅ (fun _ => Client.AConnected) c =
    (c, pool, [], Client.CPoolExhausted) ∧
  Client.safe_execute Client.default_config 10 pool ∅ (fun _ => Client.AConnected)
    (fun _ => Client.ROk 0) c = (c, pool, [], Client.Raise Client.ExPoolExhausted).
Proof.
  apply connect_pool_exhausted; [reflexivity|].
  intros b Hb. apply list_elem_of_singleton in Hb as ->. reflexivity.
Defined.
